(** * ptfs: the pass-through file system of absfs

    A shallow embedding of package [ptfs] (github.com/absfs/ptfs) and of the
    part of the Go runtime it relies on: interface values carrying a dynamic
    type and a pointer, comma-ok type assertions, heap-allocated structs,
    nil dereference panics and dynamic method dispatch.

    [UnwrapFiler], [UnwrapFS] and [UnwrapSymlinkFS] are translated from
    utils.go.  The wrapper structs, their constructors and their methods
    are declared in another file of the package, which this development
    does not have; they are modelled from the specification and from the
    way utils.go, the tests and the Readme use them, and every such
    definition says so. *)

From stdpp Require Import base list strings.
From Stdlib Require Import ZArith NArith Lia Ascii.

Set Default Proof Using "Type".
Open Scope string_scope.
Open Scope list_scope.

(** ** Go values *)

(** The three capability surfaces of absfs.  [absfs.FileSystem] embeds
    [absfs.Filer], and [absfs.SymlinkFileSystem] embeds [absfs.FileSystem]. *)
Inductive surface := SFiler | SFileSystem | SSymlinkFileSystem.

#[global] Instance surface_eq_dec : EqDecision surface.
Proof. solve_decision. Defined.

(** [surface_le a b]: every method of surface [a] is a method of [b]. *)
Definition surface_le (a b : surface) : bool :=
  match a, b with
  | SFiler, _ => true
  | SFileSystem, (SFileSystem | SSymlinkFileSystem) => true
  | SSymlinkFileSystem, SSymlinkFileSystem => true
  | _, _ => false
  end.

(** Dynamic (concrete) types an absfs interface value can carry: the three
    pointer types of this package, or a type of another package, known by
    its name (for instance ["*memfs.FileSystem"]). *)
Inductive ctype :=
| PtrFiler              (* *ptfs.Filer *)
| PtrFileSystem         (* *ptfs.FileSystem *)
| PtrSymlinkFileSystem  (* *ptfs.SymlinkFileSystem *)
| Foreign (name : string).

#[global] Instance ctype_eq_dec : EqDecision ctype.
Proof. solve_decision. Defined.

(** Addresses; [0] is the nil pointer. *)
Definition addr := nat.

(** An interface value is the nil interface or a pair of a dynamic type and
    a data word (for pointer types, the address).  Go's [==] on interface
    values holding pointers is equality of these pairs. *)
Inductive iface :=
| INil
| IVal (t : ctype) (p : addr).

#[global] Instance iface_eq_dec : EqDecision iface.
Proof. solve_decision. Defined.

Definition concrete_type (v : iface) : option ctype :=
  match v with
  | INil => None
  | IVal t _ => Some t
  end.

(** [v.(T)] in its comma-ok form, for a concrete type [T]: the data word
    when the dynamic type of [v] is exactly [T]; it never panics, and fails
    on the nil interface. *)
Definition type_assert (v : iface) (T : ctype) : option addr :=
  match v with
  | INil => None
  | IVal t p => if decide (t = T) then Some p else None
  end.

(** ** The wrapper structs and the heap *)

(** The struct declarations are in the other file of the package; utils.go reads
    the fields [fs] of [Filer], [fs] of [FileSystem] and [sfs] of
    [SymlinkFileSystem], each at the interface type of its surface. *)
Record Filer := mkFiler { Filer_fs : iface }.
Record FileSystem := mkFileSystem { FileSystem_fs : iface }.
Record SymlinkFileSystem := mkSymlinkFileSystem { sfs : iface }.

Inductive object :=
| OFiler (o : Filer)
| OFileSystem (o : FileSystem)
| OSymlinkFileSystem (o : SymlinkFileSystem).

(** The heap of wrapper structs.  The object at index [i] has address
    [S i]; allocation appends, so an address is never reused. *)
Abbreviation heap := (list object).

Definition deref (h : heap) (p : addr) : option object :=
  match p with
  | O => None
  | S i => h !! i
  end.

Definition alloc (h : heap) (o : object) : heap * addr :=
  (h ++ [o], S (length h)).

(** Computations that may panic. *)
Inductive go (A : Type) :=
| Ret (a : A)
| Panic.
Arguments Ret {A} a.
Arguments Panic {A}.

Definition go_bind {A B} (m : go A) (k : A → go B) : go B :=
  match m with
  | Ret a => k a
  | Panic => Panic
  end.

(** Loading through a pointer of each wrapper type; a nil pointer panics. *)
Definition load_Filer (h : heap) (p : addr) : go Filer :=
  match deref h p with
  | Some (OFiler o) => Ret o
  | _ => Panic
  end.

Definition load_FileSystem (h : heap) (p : addr) : go FileSystem :=
  match deref h p with
  | Some (OFileSystem o) => Ret o
  | _ => Panic
  end.

Definition load_SymlinkFileSystem (h : heap) (p : addr) : go SymlinkFileSystem :=
  match deref h p with
  | Some (OSymlinkFileSystem o) => Ret o
  | _ => Panic
  end.

(** ** utils.go *)

(** [func UnwrapFiler(fs absfs.Filer) absfs.Filer] *)
Definition UnwrapFiler (h : heap) (fs : iface) : go iface :=
  match type_assert fs PtrFiler with          (* pfs, ok := fs.( *Filer) *)
  | Some pfs =>                               (* if ok *)
      go_bind (load_Filer h pfs) (λ o, Ret (Filer_fs o))   (* return pfs.fs *)
  | None => Ret fs                            (* return fs *)
  end.

(** [func UnwrapFS(fs absfs.FileSystem) absfs.FileSystem] *)
Definition UnwrapFS (h : heap) (fs : iface) : go iface :=
  match type_assert fs PtrFileSystem with     (* pfs, ok := fs.( *FileSystem) *)
  | Some pfs =>
      go_bind (load_FileSystem h pfs) (λ o, Ret (FileSystem_fs o))  (* return pfs.fs *)
  | None => Ret fs
  end.

(** [func UnwrapSymlinkFS(fs absfs.SymlinkFileSystem) absfs.SymlinkFileSystem] *)
Definition UnwrapSymlinkFS (h : heap) (fs : iface) : go iface :=
  match type_assert fs PtrSymlinkFileSystem with  (* pfs, ok := fs.( *SymlinkFileSystem) *)
  | Some pfs =>
      go_bind (load_SymlinkFileSystem h pfs) (λ o, Ret (sfs o))     (* return pfs.sfs *)
  | None => Ret fs
  end.

(** The unwrap function of a surface, and the wrapper type it recognises. *)
Definition Unwrap (s : surface) : heap → iface → go iface :=
  match s with
  | SFiler => UnwrapFiler
  | SFileSystem => UnwrapFS
  | SSymlinkFileSystem => UnwrapSymlinkFS
  end.

Definition wrapper_type (s : surface) : ctype :=
  match s with
  | SFiler => PtrFiler
  | SFileSystem => PtrFileSystem
  | SSymlinkFileSystem => PtrSymlinkFileSystem
  end.

(** ** Errors and constructors *)

(** The error kinds of the specification. *)
Inductive errkind :=
| NotFound | AlreadyExists | IsADirectory | NotADirectory | DirectoryNotEmpty
| NotASymlink | PermissionDenied | NotSupported | InvalidArgument
| TooManyLinks.

#[global] Instance errkind_eq_dec : EqDecision errkind.
Proof. solve_decision. Defined.

(** Go's [error]: [None] is the nil error. *)
Definition error := option errkind.

(** Modelled from the spec: the constructor [NewFiler], declared in the
    other file of the package.  The tests call it as [filer, err :=
    ptfs.NewFiler(mfs)]; the specification says that a wrapper "is
    constructed from exactly one non-null backend reference" and that
    constructors fail "only if the backend instance is invalid
    (null/absent) -- never based on backend content". *)
Definition NewFiler (h : heap) (fs : iface) : heap * (addr * error) :=
  match fs with
  | INil => (h, (0, Some InvalidArgument))
  | IVal _ _ =>
      let '(h', p) := alloc h (OFiler (mkFiler fs)) in     (* &Filer{fs} *)
      (h', (p, None))
  end.

(** Modelled from the spec: the constructor [NewFS], as [NewFiler]. *)
Definition NewFS (h : heap) (fs : iface) : heap * (addr * error) :=
  match fs with
  | INil => (h, (0, Some InvalidArgument))
  | IVal _ _ =>
      let '(h', p) := alloc h (OFileSystem (mkFileSystem fs)) in
      (h', (p, None))
  end.

(** Modelled from the spec: the constructor [NewSymlinkFS], as [NewFiler]. *)
Definition NewSymlinkFS (h : heap) (fs : iface) : heap * (addr * error) :=
  match fs with
  | INil => (h, (0, Some InvalidArgument))
  | IVal _ _ =>
      let '(h', p) := alloc h (OSymlinkFileSystem (mkSymlinkFileSystem fs)) in
      (h', (p, None))
  end.

Definition New (s : surface) : heap → iface → heap * (addr * error) :=
  match s with
  | SFiler => NewFiler
  | SFileSystem => NewFS
  | SSymlinkFileSystem => NewSymlinkFS
  end.

(** Constructing a wrapper and holding it at the interface type of its
    surface, as the tests do ([var fs absfs.SymlinkFileSystem = sfs]). *)
Definition wrap (s : surface) (h : heap) (B : iface) : heap * (iface * error) :=
  let '(h', (p, err)) := New s h B in
  (h', (IVal (wrapper_type s) p, err)).

(** ** Operations of the capability surfaces *)

(** [os.FileInfo], as far as the tests observe it. *)
Record FileInfo := mkFileInfo {
  fi_name : string;
  fi_size : Z;
  fi_mode : N;        (* os.FileMode, a uint32 *)
  fi_modtime : Z
}.

(** [os.ModeDir] and [os.ModeSymlink]. *)
Definition ModeDir : N := N.shiftl 1 31.
Definition ModeSymlink : N := N.shiftl 1 27.

(** An [absfs.File] handle is an interface value of the backend. *)
Definition File := iface.

(** A method call on a surface: the method and its arguments. *)
Inductive op :=
(* absfs.Filer *)
| OpenFile (name : string) (flag : Z) (perm : N)
| Mkdir (name : string) (perm : N)
| Remove (name : string)
| Rename (oldpath newpath : string)
| Stat (name : string)
| Chmod (name : string) (mode : N)
| Chtimes (name : string) (atime mtime : Z)
| Chown (name : string) (uid gid : Z)
(* absfs.FileSystem *)
| Separator
| ListSeparator
| Chdir (dir : string)
| Getwd
| TempDir
| Open (name : string)
| Create (name : string)
| MkdirAll (name : string) (perm : N)
| RemoveAll (path : string)
| Truncate (name : string) (size : Z)
(* absfs.SymlinkFileSystem *)
| Lstat (name : string)
| Lchown (name : string) (uid gid : Z)
| Readlink (name : string)
| Symlink (oldname newname : string).

(** The surface that declares the method. *)
Definition op_surface (o : op) : surface :=
  match o with
  | OpenFile _ _ _ | Mkdir _ _ | Remove _ | Rename _ _ | Stat _
  | Chmod _ _ | Chtimes _ _ _ | Chown _ _ _ => SFiler
  | Separator | ListSeparator | Chdir _ | Getwd | TempDir | Open _
  | Create _ | MkdirAll _ _ | RemoveAll _ | Truncate _ _ => SFileSystem
  | Lstat _ | Lchown _ _ _ | Readlink _ | Symlink _ _ => SSymlinkFileSystem
  end.

(** [has_op s o]: [o] is in the method set of surface [s]. *)
Definition has_op (s : surface) (o : op) : bool := surface_le (op_surface o) s.

(** The path arguments of a call. *)
Definition op_paths (o : op) : list string :=
  match o with
  | OpenFile n _ _ | Mkdir n _ | Remove n | Stat n | Chmod n _
  | Chtimes n _ _ | Chown n _ _ | Chdir n | Open n | Create n
  | MkdirAll n _ | RemoveAll n | Truncate n _ | Lstat n | Lchown n _ _
  | Readlink n => [n]
  | Rename a b | Symlink a b => [a; b]
  | Separator | ListSeparator | Getwd | TempDir => []
  end.

(** What a method returns, by result signature. *)
Inductive result :=
| RError (err : error)                              (* error *)
| RFile (f : File) (err : error)                    (* (absfs.File, error) *)
| RFileInfo (fi : option FileInfo) (err : error)    (* (os.FileInfo, error) *)
| RUint8 (c : N)                                    (* uint8 *)
| RString (s : string)                              (* string *)
| RStringErr (s : string) (err : error).            (* (string, error) *)


(** The outcome of a call: it returns a result and leaves the backend in a
    new state, or panics, or is a call the Go compiler rejects (the method
    is not in the method set of the receiver). *)
Inductive outcome (World : Type) :=
| Returns (r : result) (w : World)
| Panics
| IllTyped.
Arguments Returns {World} r w.
Arguments Panics {World}.
Arguments IllTyped {World}.


(** The interface field held by a wrapper struct. *)
Definition field (o : object) : iface :=
  match o with
  | OFiler o => Filer_fs o
  | OFileSystem o => FileSystem_fs o
  | OSymlinkFileSystem o => sfs o
  end.

(** The struct behind a pointer of wrapper type [T], if the heap has one. *)
Definition receiver (h : heap) (T : ctype) (p : addr) : option iface :=
  match T, deref h p with
  | PtrFiler, Some (OFiler o) => Some (Filer_fs o)
  | PtrFileSystem, Some (OFileSystem o) => Some (FileSystem_fs o)
  | PtrSymlinkFileSystem, Some (OSymlinkFileSystem o) => Some (sfs o)
  | _, _ => None
  end.

(** The method set of each wrapper type is the surface it wraps. *)
Definition method_set (T : ctype) : option surface :=
  match T with
  | PtrFiler => Some SFiler
  | PtrFileSystem => Some SFileSystem
  | PtrSymlinkFileSystem => Some SSymlinkFileSystem
  | Foreign _ => None
  end.

Section Dispatch.
(** The backends are code of other packages: [World] is the state they
    keep, and [methods T p o w] runs method [o] of the foreign type [T] on
    the receiver [p] in state [w]. *)
Context {World : Type}.
Variable methods : string → addr → op → World → outcome World.

(** Modelled from the spec: the methods of [*Filer], [*FileSystem] and
    [*SymlinkFileSystem], declared in the other file of the package.  Each
    "forwards every operation to the backend with identical arguments and
    returns the backend's result and error unmodified, with zero added
    validation, transformation, retry, or caching"; the Readme says the
    package "passes all interfaces methods to the underlying type without
    modification, returning the unmodified results to the caller".  So
    [(f *Filer) Stat(name)] is [return f.fs.Stat(name)], and the like.

    [call fuel h v o w] is the dynamic dispatch of [v.o] in state [w]: a
    call on the nil interface or through a nil pointer panics, a value of
    a foreign type runs its own method, and a wrapper forwards to the
    interface value in its field.  One unit of fuel is spent per call;
    [None] means the fuel ran out. *)
Fixpoint call (fuel : nat) (h : heap) (v : iface) (o : op) (w : World)
    : option (outcome World) :=
  match fuel with
  | O => None
  | S fuel' =>
      match v with
      | INil => Some Panics
      | IVal (Foreign T) p => Some (methods T p o w)
      | IVal T p =>
          match method_set T with
          | Some s =>
              if has_op s o then
                match receiver h T p with
                | Some inner => call fuel' h inner o w
                | None => Some Panics
                end
              else Some IllTyped
          | None => Some IllTyped
          end
      end
  end.
End Dispatch.

(** ** Heap invariants *)

(** [ptr_below n v]: if [v] points to a wrapper, its address is at most [n]. *)
Definition ptr_below (n : nat) (v : iface) : Prop :=
  match v with
  | INil | IVal (Foreign _) _ => True
  | IVal _ p => (p ≤ n)%nat
  end.

(** A wrapper only holds values that existed when it was allocated. *)
Definition wf_heap (h : heap) : Prop :=
  ∀ i o, h !! i = Some o → ptr_below i (field o).

(** [valid h v]: [v] does not point past the heap. *)
Definition valid (h : heap) (v : iface) : Prop := ptr_below (length h) v.

(** ** Nested wrapping *)

(** [wrap_iter s n h B]: wrap [B] in [n] layers of surface [s]. *)
Fixpoint wrap_iter (s : surface) (n : nat) (h : heap) (B : iface)
    : option (heap * iface) :=
  match n with
  | O => Some (h, B)
  | S n' =>
      match wrap_iter s n' h B with
      | Some (h1, W1) =>
          match wrap s h1 W1 with
          | (h2, (W2, None)) => Some (h2, W2)
          | (_, (_, Some _)) => None
          end
      | None => None
      end
  end.

(** [unwrap_iter s k h v]: call the unwrap function of [s] [k] times. *)
Fixpoint unwrap_iter (s : surface) (k : nat) (h : heap) (v : iface) : go iface :=
  match k with
  | O => Ret v
  | S k' => go_bind (Unwrap s h v) (unwrap_iter s k' h)
  end.

(** ** A backend to run examples on *)

(** The backends are not part of ptfs.  [TestFS] is a small in-memory
    file system that plays, in the examples below, the part memfs plays in
    the tests: a concrete [World] and concrete [methods] to evaluate the
    wrappers on.  Two flags, chosen by the name of the foreign type, say
    whether it rejects the empty path and whether its [Stat] follows
    links; ["*testfs.FS"], the backend of the examples, does both. *)
Module TestFS.

Inductive node :=
| NDir
| NFile (size : Z)
| NLink (target : string).

Record world := mkWorld {
  wd : string;
  tree : list (string * node)
}.

Record flavour := mkFlavour {
  rejects_empty : bool;
  stat_follows : bool
}.

Definition flavour_of (T : string) : flavour :=
  if decide (T = "*testfs.Lenient") then mkFlavour false true
  else if decide (T = "*testfs.NoFollow") then mkFlavour true false
  else mkFlavour true true.


Fixpoint lookup (t : list (string * node)) (path : string) : option node :=
  match t with
  | [] => None
  | (p, n) :: t' => if decide (p = path) then Some n else lookup t' path
  end.

Fixpoint basename_from (acc s : string) : string :=
  match s with
  | EmptyString => acc
  | String c r =>
      if Ascii.eqb c "/"%char then basename_from "" r
      else basename_from (acc ++ String c "")%string r
  end.

Definition basename (path : string) : string := basename_from "" path.

Definition info (path : string) (n : node) : FileInfo :=
  match n with
  | NDir => mkFileInfo (basename path) 0 (N.lor ModeDir 493) 0
  | NFile sz => mkFileInfo (basename path) sz 420 0
  | NLink _ => mkFileInfo (basename path) 0 (N.lor ModeSymlink 511) 0
  end.

(** Follow a chain of links, at most [hops] of them. *)
Fixpoint follow (hops : nat) (t : list (string * node)) (path : string)
    : errkind + (string * node) :=
  match lookup t path with
  | None => inl NotFound
  | Some (NLink target) =>
      match hops with
      | O => inl TooManyLinks
      | S hops' => follow hops' t target
      end
  | Some n => inr (path, n)
  end.

(** The failure value of each result signature. *)
Definition failure (o : op) (e : errkind) : result :=
  match o with
  | OpenFile _ _ _ | Open _ | Create _ => RFile INil (Some e)
  | Stat _ | Lstat _ => RFileInfo None (Some e)
  | Getwd | Readlink _ => RStringErr "" (Some e)
  | Separator | ListSeparator => RUint8 0
  | TempDir => RString ""
  | _ => RError (Some e)
  end.

Definition clean (w : world) (path : string) : string :=
  if decide (path = "") then wd w else path.

Definition stat_result (path : string) (r : errkind + (string * node)) : result :=
  match r with
  | inl e => RFileInfo None (Some e)
  | inr (_, n) => RFileInfo (Some (info path n)) None
  end.

Definition run (fl : flavour) (o : op) (w : world) : outcome world :=
  if rejects_empty fl && bool_decide ("" ∈ op_paths o)
  then Returns (failure o InvalidArgument) w
  else
    match o with
    | Separator => Returns (RUint8 47) w
    | ListSeparator => Returns (RUint8 58) w
    | TempDir => Returns (RString "/tmp") w
    | Getwd => Returns (RStringErr (wd w) None) w
    | Chdir dir =>
        match follow 40 (tree w) (clean w dir) with
        | inr (p, NDir) => Returns (RError None) (mkWorld p (tree w))
        | inr _ => Returns (RError (Some NotADirectory)) w
        | inl e => Returns (RError (Some e)) w
        end
    | Mkdir name _ =>
        match lookup (tree w) (clean w name) with
        | Some _ => Returns (RError (Some AlreadyExists)) w
        | None => Returns (RError None)
                          (mkWorld (wd w) ((clean w name, NDir) :: tree w))
        end
    | Create name =>
        match lookup (tree w) (clean w name) with
        | Some NDir => Returns (RFile INil (Some IsADirectory)) w
        | _ => Returns (RFile (IVal (Foreign "*testfs.File") 1) None)
                       (mkWorld (wd w) ((clean w name, NFile 0) :: tree w))
        end
    | Symlink target link =>
        match lookup (tree w) link with
        | Some _ => Returns (RError (Some AlreadyExists)) w
        | None => Returns (RError None)
                          (mkWorld (wd w) ((link, NLink target) :: tree w))
        end
    | Readlink name =>
        match lookup (tree w) (clean w name) with
        | Some (NLink target) => Returns (RStringErr target None) w
        | Some _ => Returns (RStringErr "" (Some NotASymlink)) w
        | None => Returns (RStringErr "" (Some NotFound)) w
        end
    | Lstat name =>
        match lookup (tree w) (clean w name) with
        | Some n => Returns (RFileInfo (Some (info (clean w name) n)) None) w
        | None => Returns (RFileInfo None (Some NotFound)) w
        end
    | Stat name =>
        if stat_follows fl then
          Returns (stat_result (clean w name) (follow 40 (tree w) (clean w name))) w
        else
          match lookup (tree w) (clean w name) with
          | Some n => Returns (RFileInfo (Some (info (clean w name) n)) None) w
          | None => Returns (RFileInfo None (Some NotFound)) w
          end
    | _ => Returns (failure o NotSupported) w
    end.

Definition methods (T : string) (p : addr) (o : op) (w : world) : outcome world :=
  run (flavour_of T) o w.

(** The backend value the examples wrap. *)
Definition mfs : iface := IVal (Foreign "*testfs.FS") 1.

(** The state after [Create("/target.txt")] and
    [Symlink("/target.txt", "/link.txt")], as in TestMetadata_StatVsLstat. *)
Definition linked : world :=
  mkWorld "/" [("/link.txt", NLink "/target.txt"); ("/target.txt", NFile 0); ("/", NDir)].

End TestFS.

(** ** Statements about results *)




(** ** Statements that are put to the test below *)

(** The anti-reflection contract read over every backend: the wrapper is
    not its backend, it cannot be asserted to the concrete type of its
    backend, and one unwrap gives a value that can. *)
Definition opaque_for_every_backend : Prop :=
  ∀ s h B h' W t,
    valid h B →
    wrap s h B = (h', (W, None)) →
    concrete_type B = Some t →
    W ≠ B ∧
    type_assert W t = None ∧
    ∃ U, Unwrap s h' W = Ret U ∧ is_Some (type_assert U t).

(** ** Calls, sequences of calls and what a backend owes

    The backends are code of other packages.  The specification states
    what it expects of them; the definitions below put those expectations
    on a value [B], read as what calls made on [B] itself answer. *)

Section Answers.
Context {World : Type}.
Variable methods : string → addr → op → World → outcome World.








End Answers.

(** ** Typing of the heap *)

(** What Go's type system guarantees of a value: a pointer of a wrapper
    type is nil or points to a struct of that type. *)
Definition well_typed (h : heap) (v : iface) : Prop :=
  match v with
  | INil | IVal (Foreign _) _ => True
  | IVal T p => p = 0%nat ∨ is_Some (receiver h T p)
  end.

(** The address a value points to, when it is a wrapper of surface [s]. *)
Definition wrapper_addr (s : surface) (v : iface) : option addr :=
  type_assert v (wrapper_type s).

(** * Proofs *)

(** ** The Go runtime model *)

Lemma type_assert_Some v T p :
  type_assert v T = Some p ↔ v = IVal T p.
Proof.
  destruct v as [|t q]; simpl; [split; discriminate|].
  destruct (decide (t = T)) as [->|Hne]; split; intros H; try congruence.
Qed.

Lemma type_assert_None v T :
  type_assert v T = None ↔ concrete_type v ≠ Some T.
Proof.
  destruct v as [|t q]; simpl; [split; [discriminate | done]|].
  destruct (decide (t = T)) as [->|Hne]; split; intros H; congruence.
Qed.

Lemma type_assert_own v t :
  concrete_type v = Some t → is_Some (type_assert v t).
Proof.
  destruct v as [|t' q]; simpl; [discriminate|].
  intros [= ->]. rewrite decide_True by done. by eexists.
Qed.

Lemma deref_app_l h h2 p :
  (p ≤ length h)%nat → deref (h ++ h2) p = deref h p.
Proof.
  destruct p as [|i]; simpl; [done|].
  intros Hp. apply lookup_app_l. lia.
Qed.

Lemma deref_alloc h o h2 :
  deref ((h ++ [o]) ++ h2) (S (length h)) = Some o.
Proof.
  simpl. rewrite <- app_assoc. rewrite lookup_app_r by lia.
  by rewrite Nat.sub_diag.
Qed.

Lemma ptr_below_mono n m v :
  (n ≤ m)%nat → ptr_below n v → ptr_below m v.
Proof.
  destruct v as [|[] p]; simpl; intros; try done; lia.
Qed.

Lemma receiver_field h T p inner :
  receiver h T p = Some inner →
  ∃ i o, p = S i ∧ h !! i = Some o ∧ field o = inner.
Proof.
  unfold receiver. destruct p as [|i]; simpl.
  - destruct T; discriminate.
  - destruct T, (h !! i) as [[]|] eqn:E; try discriminate;
      intros [= <-]; eauto.
Qed.

Lemma receiver_app_l h h2 T p :
  (p ≤ length h)%nat → receiver (h ++ h2) T p = receiver h T p.
Proof.
  intros Hp. unfold receiver. by rewrite deref_app_l.
Qed.

(** ** Constructors *)

Lemma New_inv s h B h' p :
  New s h B = (h', (p, None)) →
  B ≠ INil ∧ p = S (length h) ∧
  ∃ o, h' = h ++ [o] ∧ field o = B ∧ receiver h' (wrapper_type s) p = Some B.
Proof.
  destruct s, B as [|t q]; simpl; try discriminate;
    intros [= <- <-]; (split; [done|]); (split; [done|]);
    eexists; (split; [done|]); (split; [done|]);
    unfold receiver; rewrite <- (app_nil_r (h ++ _)), deref_alloc; done.
Qed.

Lemma wrap_inv s h B h' W :
  wrap s h B = (h', (W, None)) →
  B ≠ INil ∧ W = IVal (wrapper_type s) (S (length h)) ∧
  ∃ o, h' = h ++ [o] ∧ field o = B ∧
       receiver h' (wrapper_type s) (S (length h)) = Some B.
Proof.
  unfold wrap. destruct (New s h B) as [h1 [p e]] eqn:E.
  intros [= -> <- ->].
  apply New_inv in E as (HB & -> & o & -> & Hf & Hr). eauto 10.
Qed.


(** ** Dispatch *)

Section DispatchFacts.
Context {World : Type}.
Variable methods : string → addr → op → World → outcome World.

(** A call on a wrapper whose method set has the method is the same call
    on the value in its field, one unit of fuel later. *)
Lemma call_forward n h s p inner o w :
  has_op s o = true →
  receiver h (wrapper_type s) p = Some inner →
  call methods (S n) h (IVal (wrapper_type s) p) o w = call methods n h inner o w.
Proof.
  intros Ho Hr. destruct s; simpl in *; rewrite Ho; simpl in *; by rewrite Hr.
Qed.

Lemma call_wrap s h B h' W o w n :
  wrap s h B = (h', (W, None)) →
  has_op s o = true →
  call methods (S n) h' W o w = call methods n h' B o w.
Proof.
  intros Hw Ho. apply wrap_inv in Hw as (_ & -> & _ & _ & _ & Hr).
  by apply call_forward.
Qed.

(** More fuel does not change an answer. *)
Lemma call_fuel_S n h v o w :
  call methods n h v o w ≠ None →
  call methods (S n) h v o w = call methods n h v o w.
Proof.
  revert v. induction n as [|n IH]; intros v; [done|].
  destruct v as [|T p]; [done|].
  destruct T; try done;
    cbn [call method_set]; (destruct (has_op _ o); [|done]);
    (destruct (receiver h _ p) as [inner|]; [|done]); apply IH.
Qed.

Lemma call_fuel_le n m h v o w :
  (n ≤ m)%nat →
  call methods n h v o w ≠ None →
  call methods m h v o w = call methods n h v o w.
Proof.
  induction 1 as [|m Hle IH]; [done|].
  intros Hn. rewrite call_fuel_S; [by apply IH|]. by rewrite IH.
Qed.

(** In a well-formed heap a call on a value at address at most [n] is
    answered with [S n] units of fuel: dispatch terminates. *)
Lemma call_total fuel h v o w n :
  wf_heap h → ptr_below n v → (n < fuel)%nat →
  call methods fuel h v o w ≠ None.
Proof.
  intros Hwf. revert v n.
  induction fuel as [|fuel IH]; intros v n Hv Hn; [lia|].
  destruct v as [|T p]; [done|].
  destruct T; try done;
    cbn [call method_set]; (destruct (has_op _ o); [|done]);
    (destruct (receiver h _ p) as [inner|] eqn:Hr; [|done]);
    apply receiver_field in Hr as (i & ob & -> & Hi & <-);
    (apply (IH _ i); [by apply Hwf | simpl in Hv; lia]).
Qed.

(** Objects allocated later do not change a call on an earlier value. *)
Lemma call_frame fuel h h2 v o w :
  wf_heap h → valid h v →
  call methods fuel (h ++ h2) v o w = call methods fuel h v o w.
Proof.
  intros Hwf. revert v.
  induction fuel as [|fuel IH]; intros v Hv; [done|].
  destruct v as [|T p]; [done|].
  destruct T; try done;
    cbn [call method_set]; (destruct (has_op _ o); [|done]);
    (rewrite receiver_app_l by exact Hv);
    (destruct (receiver h _ p) as [inner|] eqn:Hr; [|done]);
    apply receiver_field in Hr as (i & ob & -> & Hi & <-);
    apply IH; unfold valid;
    (eapply ptr_below_mono; [|by apply Hwf]);
    apply lookup_lt_Some in Hi; lia.
Qed.
End DispatchFacts.

(** ** Unwrapping *)

Lemma wf_heap_nil : wf_heap [].
Proof. intros i o Hi. by rewrite lookup_nil in Hi. Qed.

Lemma Unwrap_receiver s h p inner :
  receiver h (wrapper_type s) p = Some inner →
  Unwrap s h (IVal (wrapper_type s) p) = Ret inner.
Proof.
  unfold receiver.
  destruct s; simpl;
    unfold UnwrapFiler, UnwrapFS, UnwrapSymlinkFS, load_Filer,
      load_FileSystem, load_SymlinkFileSystem; simpl;
    destruct (deref h p) as [[]|]; try discriminate;
    by intros [= <-].
Qed.

Lemma Unwrap_other s h X :
  type_assert X (wrapper_type s) = None → Unwrap s h X = Ret X.
Proof.
  destruct s; simpl;
    unfold UnwrapFiler, UnwrapFS, UnwrapSymlinkFS; by intros ->.
Qed.

Lemma wrap_Unwrap_frame s h B h' W h2 :
  wrap s h B = (h', (W, None)) → Unwrap s (h' ++ h2) W = Ret B.
Proof.
  intros Hw. apply wrap_inv in Hw as (_ & -> & o & -> & _ & Hr).
  apply Unwrap_receiver. rewrite receiver_app_l; [done|].
  rewrite length_app. simpl. lia.
Qed.

Lemma wrap_Unwrap s h B h' W :
  wrap s h B = (h', (W, None)) → Unwrap s h' W = Ret B.
Proof.
  intros Hw. rewrite <- (app_nil_r h'). by eapply wrap_Unwrap_frame.
Qed.

Lemma wrap_iter_S_inv s n h B h' W :
  wrap_iter s (S n) h B = Some (h', W) →
  ∃ h1 W1, wrap_iter s n h B = Some (h1, W1) ∧ wrap s h1 W1 = (h', (W, None)).
Proof.
  simpl. destruct (wrap_iter s n h B) as [[h1 W1]|]; [|discriminate].
  destruct (wrap s h1 W1) as [h2 [W2 [e|]]] eqn:E; [discriminate|].
  intros [= <- <-]. eauto.
Qed.

Lemma wrap_iter_shape s n h B h' W :
  wrap_iter s n h B = Some (h', W) →
  length h' = (length h + n)%nat ∧
  ((0 < n)%nat → W = IVal (wrapper_type s) (length h + n)).
Proof.
  revert h' W. induction n as [|n IH]; intros h' W Hn.
  - simpl in Hn. injection Hn as <- <-. split; [lia | intros; lia].
  - apply wrap_iter_S_inv in Hn as (h1 & W1 & Hn & Hw).
    apply IH in Hn as [Hlen _].
    apply wrap_inv in Hw as (_ & -> & o & -> & _ & _).
    rewrite length_app, Hlen. simpl.
    split; [lia | intros _; f_equal; lia].
Qed.

Lemma valid_not_fresh s h B n :
  valid h B → (0 < n)%nat → IVal (wrapper_type s) (length h + n) ≠ B.
Proof.
  intros HB Hn <-. unfold valid in HB. destruct s; simpl in HB; lia.
Qed.

Lemma unwrap_iter_wrap_iter s n :
  ∀ h B h' W h2 k,
    wrap_iter s n h B = Some (h', W) →
    (k ≤ n)%nat →
    ∃ hk Wk, wrap_iter s (n - k) h B = Some (hk, Wk) ∧
             unwrap_iter s k (h' ++ h2) W = Ret Wk.
Proof.
  induction n as [|n IH]; intros h B h' W h2 k Hn Hk.
  - assert (k = 0)%nat as -> by lia. simpl in *. eauto.
  - destruct k as [|k]; [rewrite Nat.sub_0_r; simpl unwrap_iter; eauto|].
    apply wrap_iter_S_inv in Hn as (h1 & W1 & Hn & Hw).
    pose proof (wrap_Unwrap_frame _ _ _ _ _ h2 Hw) as HU.
    apply wrap_inv in Hw as (_ & _ & o & -> & _ & _).
    destruct (IH h B h1 W1 ([o] ++ h2) k Hn ltac:(lia)) as (hk & Wk & Hk1 & Hk2).
    exists hk, Wk. split; [exact Hk1|].
    cbn [unwrap_iter]. rewrite HU. simpl go_bind.
    by rewrite <- app_assoc.
Qed.

(** C2.  For every surface and every backend [B], the unwrap function of
    the surface applied to the wrapper constructed around [B] returns
    exactly [B]: the same interface value, dynamic type and pointer. *)
Theorem unwrap_wrap s h B h' W :
  wrap s h B = (h', (W, None)) →
  Unwrap s h' W = Ret B.
Proof. apply wrap_Unwrap. Qed.

Lemma unwrap_wrap_witness :
  wrap SFiler [] TestFS.mfs
    = ([OFiler (mkFiler TestFS.mfs)], (IVal PtrFiler 1, None)) ∧
  UnwrapFiler [OFiler (mkFiler TestFS.mfs)] (IVal PtrFiler 1) = Ret TestFS.mfs.
Proof.
  split; [reflexivity|].
  apply (unwrap_wrap SFiler [] TestFS.mfs). reflexivity.
Defined.

(** C3.  For every value [X] whose dynamic type is not the wrapper type of
    the surface (the nil interface included), the unwrap function of the
    surface returns [X] itself. *)
Theorem unwrap_not_wrapped s h X :
  concrete_type X ≠ Some (wrapper_type s) →
  Unwrap s h X = Ret X.
Proof.
  intros HX. apply Unwrap_other. by apply type_assert_None.
Qed.

Lemma unwrap_not_wrapped_witness :
  UnwrapSymlinkFS [] TestFS.mfs = Ret TestFS.mfs.
Proof.
  apply (unwrap_not_wrapped SSymlinkFileSystem [] TestFS.mfs).
  simpl. discriminate.
Defined.

(** C4.  Each unwrap call removes exactly one layer: after wrapping [B] in
    [n] layers, [k ≤ n] unwrap calls return the value that [n - k] layers
    of wrapping had produced; for [k < n] it is a wrapper and not [B], and
    for [k = n] it is [B]. *)
Theorem unwrap_peels_one_layer s n h B h' W k :
  valid h B →
  wrap_iter s n h B = Some (h', W) →
  (k ≤ n)%nat →
  ∃ hk Wk,
    wrap_iter s (n - k) h B = Some (hk, Wk) ∧
    unwrap_iter s k h' W = Ret Wk ∧
    ((k < n)%nat → Wk = IVal (wrapper_type s) (length h + (n - k)) ∧ Wk ≠ B) ∧
    (k = n → Wk = B).
Proof.
  intros HB Hn Hk.
  destruct (unwrap_iter_wrap_iter s n h B h' W [] k Hn Hk) as (hk & Wk & H1 & H2).
  rewrite app_nil_r in H2.
  exists hk, Wk. split; [exact H1|]. split; [exact H2|]. split.
  - intros Hlt. apply wrap_iter_shape in H1 as [_ HW].
    rewrite HW by lia. split; [done|]. apply valid_not_fresh; [done | lia].
  - intros ->. rewrite Nat.sub_diag in H1. simpl in H1. congruence.
Qed.

Lemma unwrap_peels_one_layer_witness :
  (* double-wrap B -> W1 -> W2; unwrap(W2) is W1, unwrap(unwrap(W2)) is B *)
  let h2 := [OSymlinkFileSystem (mkSymlinkFileSystem TestFS.mfs);
             OSymlinkFileSystem (mkSymlinkFileSystem (IVal PtrSymlinkFileSystem 1))] in
  (∃ hk Wk,
    wrap_iter SSymlinkFileSystem 1 [] TestFS.mfs = Some (hk, Wk) ∧
    unwrap_iter SSymlinkFileSystem 1 h2 (IVal PtrSymlinkFileSystem 2) = Ret Wk ∧
    ((1 < 2)%nat → Wk = IVal PtrSymlinkFileSystem 1 ∧ Wk ≠ TestFS.mfs) ∧
    (1 = 2 → Wk = TestFS.mfs)) ∧
  (∃ hk Wk,
    wrap_iter SSymlinkFileSystem 0 [] TestFS.mfs = Some (hk, Wk) ∧
    unwrap_iter SSymlinkFileSystem 2 h2 (IVal PtrSymlinkFileSystem 2) = Ret Wk ∧
    ((2 < 2)%nat → Wk = IVal PtrSymlinkFileSystem 0 ∧ Wk ≠ TestFS.mfs) ∧
    (2 = 2 → Wk = TestFS.mfs)).
Proof.
  split.
  - apply (unwrap_peels_one_layer SSymlinkFileSystem 2 [] TestFS.mfs _ _ 1);
      [exact I | reflexivity | lia].
  - apply (unwrap_peels_one_layer SSymlinkFileSystem 2 [] TestFS.mfs _ _ 2);
      [exact I | reflexivity | lia].
Defined.

(** C10.  Unwrapping is specific to the surface: the unwrap function of
    surface [s] returns a wrapper of any other surface [s'] unchanged,
    without reading its field.  (It does so whatever the pointer is.) *)
Theorem unwrap_surface_specific s s' h p :
  s ≠ s' →
  Unwrap s h (IVal (wrapper_type s') p) = Ret (IVal (wrapper_type s') p).
Proof.
  intros Hne. apply Unwrap_other.
  destruct s, s'; try done; by destruct Hne.
Qed.

Lemma unwrap_surface_specific_witness :
  UnwrapFS [OSymlinkFileSystem (mkSymlinkFileSystem TestFS.mfs)]
           (IVal PtrSymlinkFileSystem 1)
    = Ret (IVal PtrSymlinkFileSystem 1) ∧
  UnwrapSymlinkFS [OFileSystem (mkFileSystem TestFS.mfs)] (IVal PtrFileSystem 1)
    = Ret (IVal PtrFileSystem 1) ∧
  UnwrapSymlinkFS [OFiler (mkFiler TestFS.mfs)] (IVal PtrFiler 1)
    = Ret (IVal PtrFiler 1).
Proof.
  split; [|split].
  - apply (unwrap_surface_specific SFileSystem SSymlinkFileSystem). discriminate.
  - apply (unwrap_surface_specific SSymlinkFileSystem SFileSystem). discriminate.
  - apply (unwrap_surface_specific SSymlinkFileSystem SFiler). discriminate.
Defined.

(** ** Construction *)

(** C5.  A constructor fails exactly when the backend is the nil
    interface; on any other backend it succeeds, whatever the heap holds,
    and returns a fresh non-nil pointer. *)
Theorem New_fails_iff_nil s h B :
  (snd (snd (New s h B)) ≠ None ↔ B = INil) ∧
  (B ≠ INil →
   ∃ o, New s h B = (h ++ [o], (S (length h), None)) ∧ field o = B).
Proof.
  split.
  - destruct s, B; simpl; split; intros H; congruence.
  - intros HB. destruct s, B; try done; simpl; eauto.
Qed.

Lemma New_fails_iff_nil_witness :
  (snd (snd (NewFS [] INil)) ≠ None ↔ INil = INil) ∧
  (∃ o, NewFS [] TestFS.mfs = ([] ++ [o], (1, None)) ∧ field o = TestFS.mfs).
Proof.
  split.
  - apply (New_fails_iff_nil SFileSystem [] INil).
  - apply (New_fails_iff_nil SFileSystem [] TestFS.mfs). discriminate.
Defined.

(** ** Transparency *)

(** C1.  For every surface, every backend [B], every method [o] of the
    surface and every state [w] of the backend, the call on the wrapper of
    [B] is the call on [B] one dispatch later; with enough fuel both give
    the same outcome [x]: the same result, the same error and the same
    backend state, or the same panic. *)
Theorem wrapper_transparent {World} (methods : string → addr → op → World → outcome World)
    s h B h' W o w :
  wf_heap h → valid h B →
  wrap s h B = (h', (W, None)) →
  has_op s o = true →
  (∀ n, call methods (S n) h' W o w = call methods n h' B o w) ∧
  ∃ x,
    (∀ n, (length h < n)%nat → call methods n h B o w = Some x) ∧
    (∀ n, (length h < n)%nat → call methods n h' B o w = Some x) ∧
    (∀ n, (length h' < n)%nat → call methods n h' W o w = Some x).
Proof.
  intros Hwf HB Hw Ho.
  pose proof (call_wrap methods s h B h' W o w) as Hfw.
  split; [intros n; by apply Hfw|].
  pose proof (call_total methods (S (length h)) h B o w (length h) Hwf HB
                ltac:(lia)) as Hsome.
  destruct (call methods (S (length h)) h B o w) as [x|] eqn:Hx; [|done].
  assert (∀ n, (length h < n)%nat → call methods n h B o w = Some x) as HhB.
  { intros n Hn. rewrite <- Hx. apply call_fuel_le; [lia|]. by rewrite Hx. }
  assert (∀ n, (length h < n)%nat → call methods n h' B o w = Some x) as Hh'B.
  { intros n Hn. pose proof Hw as Hw'.
    apply wrap_inv in Hw' as (_ & _ & ob & -> & _ & _).
    rewrite call_frame by done. by apply HhB. }
  exists x. split; [done|]. split; [done|].
  intros n Hn. destruct n as [|n]; [lia|].
  rewrite Hfw by done. apply Hh'B.
  apply wrap_inv in Hw as (_ & _ & ob & -> & _ & _).
  rewrite length_app in Hn. simpl in Hn. lia.
Qed.

Lemma wrapper_transparent_witness :
  let h' := [OSymlinkFileSystem (mkSymlinkFileSystem TestFS.mfs)] in
  let W := IVal PtrSymlinkFileSystem 1 in
  let o := Stat "/link.txt" in
  (∀ n, call TestFS.methods (S n) h' W o TestFS.linked
        = call TestFS.methods n h' TestFS.mfs o TestFS.linked) ∧
  ∃ x,
    (∀ n, (0 < n)%nat → call TestFS.methods n [] TestFS.mfs o TestFS.linked = Some x) ∧
    (∀ n, (0 < n)%nat → call TestFS.methods n h' TestFS.mfs o TestFS.linked = Some x) ∧
    (∀ n, (1 < n)%nat → call TestFS.methods n h' W o TestFS.linked = Some x).
Proof.
  apply (wrapper_transparent TestFS.methods SSymlinkFileSystem [] TestFS.mfs).
  - exact wf_heap_nil.
  - exact I.
  - reflexivity.
  - reflexivity.
Defined.

(** ** Anti-reflection *)

(** C6, counterexample.  Wrap a wrapper: the backend of the outer wrapper
    is the inner one, whose concrete type is the wrapper type itself, and
    the outer wrapper can be asserted to it. *)
Lemma nested_wrapper_downcast : ¬ opaque_for_every_backend.
Proof.
  intros H.
  destruct (H SSymlinkFileSystem
              [OSymlinkFileSystem (mkSymlinkFileSystem TestFS.mfs)]
              (IVal PtrSymlinkFileSystem 1) _ _ PtrSymlinkFileSystem
              ltac:(simpl; lia) eq_refl eq_refl) as (_ & Habs & _).
  discriminate Habs.
Qed.

(** C6, amended.  The wrapper of [B] is never [B]; it cannot be asserted
    to the concrete type of [B] unless that type is the wrapper type of the
    same surface, and even then the assertion gives the wrapper and not
    [B]; and one unwrap returns [B], which can be asserted to its type. *)
Theorem wrapper_opaque s h B h' W t :
  valid h B →
  wrap s h B = (h', (W, None)) →
  concrete_type B = Some t →
  W ≠ B ∧
  (t ≠ wrapper_type s → type_assert W t = None) ∧
  (∀ p, type_assert W t = Some p → IVal t p ≠ B) ∧
  ∃ U, Unwrap s h' W = Ret U ∧ U = B ∧ is_Some (type_assert U t).
Proof.
  intros HB Hw Ht. pose proof (wrap_Unwrap _ _ _ _ _ Hw) as HU.
  apply wrap_inv in Hw as (_ & -> & _).
  assert (IVal (wrapper_type s) (S (length h)) ≠ B) as Hne.
  { rewrite <- Nat.add_1_r. apply valid_not_fresh; [done | lia]. }
  split; [done|]. split; [|split].
  - intros Ht'. apply type_assert_None. simpl. congruence.
  - intros p Hp. apply type_assert_Some in Hp. by rewrite <- Hp.
  - exists B. split; [done|]. split; [done|]. by apply type_assert_own.
Qed.

Lemma wrapper_opaque_witness :
  let h' := [OSymlinkFileSystem (mkSymlinkFileSystem TestFS.mfs)] in
  let W := IVal PtrSymlinkFileSystem 1 in
  W ≠ TestFS.mfs ∧
  (Foreign "*testfs.FS" ≠ PtrSymlinkFileSystem →
   type_assert W (Foreign "*testfs.FS") = None) ∧
  (∀ p, type_assert W (Foreign "*testfs.FS") = Some p →
        IVal (Foreign "*testfs.FS") p ≠ TestFS.mfs) ∧
  ∃ U, UnwrapSymlinkFS h' W = Ret U ∧ U = TestFS.mfs ∧
       is_Some (type_assert U (Foreign "*testfs.FS")).
Proof.
  apply (wrapper_opaque SSymlinkFileSystem [] TestFS.mfs); [exact I | reflexivity..].
Defined.

(** ** More on utils.go *)

Lemma Unwrap_wrapper_eq s h p :
  Unwrap s h (IVal (wrapper_type s) p)
    = match receiver h (wrapper_type s) p with
      | Some u => Ret u
      | None => Panic
      end.
Proof.
  unfold receiver.
  destruct s; simpl;
    unfold UnwrapFiler, UnwrapFS, UnwrapSymlinkFS, load_Filer,
      load_FileSystem, load_SymlinkFileSystem; simpl;
    by destruct (deref h p) as [[]|].
Qed.

Lemma wrapper_or_not s v :
  concrete_type v ≠ Some (wrapper_type s) ∨ ∃ p, v = IVal (wrapper_type s) p.
Proof.
  destruct v as [|t p]; [left; discriminate|].
  destruct (decide (t = wrapper_type s)) as [->|Hne]; [right; eauto|].
  left. simpl. congruence.
Qed.

Lemma receiver_older h T p u :
  wf_heap h → receiver h T p = Some u →
  (0 < p ≤ length h)%nat ∧ ptr_below (p - 1) u.
Proof.
  intros Hwf Hr. apply receiver_field in Hr as (i & o & -> & Hi & <-).
  pose proof (lookup_lt_Some _ _ _ Hi). split; [lia|].
  replace (S i - 1)%nat with i by lia. by apply Hwf.
Qed.

Lemma ptr_below_wrapper s n p :
  ptr_below n (IVal (wrapper_type s) p) ↔ (p ≤ n)%nat.
Proof. by destruct s. Qed.

Lemma unwrap_iter_fix s k h v :
  concrete_type v ≠ Some (wrapper_type s) → unwrap_iter s k h v = Ret v.
Proof.
  intros Hv. induction k as [|k IH]; [done|].
  cbn [unwrap_iter]. rewrite Unwrap_other; [done|]. by apply type_assert_None.
Qed.

Lemma unwrap_iter_add s k j h v :
  unwrap_iter s (k + j) h v = go_bind (unwrap_iter s k h v) (unwrap_iter s j h).
Proof.
  revert v. induction k as [|k IH]; intros v; [done|].
  cbn [Nat.add unwrap_iter]. destruct (Unwrap s h v) as [u|]; [|done].
  simpl. apply IH.
Qed.

(** X1.  In a well-formed heap an unwrap function returns its argument
    exactly when the argument is not a wrapper of its surface: unwrapping
    a wrapper never gives the wrapper back (TestUnwrapFiler_Wrapped,
    TestUnwrapFS_Wrapped, TestUnwrapSymlinkFS_Wrapped). *)
Theorem unwrap_same_iff_not_wrapper s h v :
  wf_heap h →
  (Unwrap s h v = Ret v ↔ concrete_type v ≠ Some (wrapper_type s)).
Proof.
  intros Hwf. split.
  - intros HU. destruct (wrapper_or_not s v) as [Hn|[p ->]]; [done|].
    rewrite Unwrap_wrapper_eq in HU.
    destruct (receiver h (wrapper_type s) p) as [u|] eqn:Hr; [|done].
    injection HU as ->.
    apply receiver_older in Hr as [Hp Hb]; [|done].
    apply ptr_below_wrapper in Hb. lia.
  - intros Hn. apply Unwrap_other. by apply type_assert_None.
Qed.

Lemma unwrap_same_iff_not_wrapper_witness :
  let h := [OFiler (mkFiler TestFS.mfs)] in
  (UnwrapFiler h (IVal PtrFiler 1) = Ret (IVal PtrFiler 1)
     ↔ Some PtrFiler ≠ Some PtrFiler) ∧
  (UnwrapFiler h TestFS.mfs = Ret TestFS.mfs
     ↔ Some (Foreign "*testfs.FS") ≠ Some PtrFiler).
Proof.
  assert (wf_heap [OFiler (mkFiler TestFS.mfs)]) as Hwf.
  { intros [|i] o Hi; simpl in Hi; [by injection Hi as <-|].
    by rewrite lookup_nil in Hi. }
  split.
  - exact (unwrap_same_iff_not_wrapper SFiler _ (IVal PtrFiler 1) Hwf).
  - exact (unwrap_same_iff_not_wrapper SFiler _ TestFS.mfs Hwf).
Defined.

(** X2.  On a well-typed value an unwrap function panics in exactly one
    case: its argument holds a nil pointer of its own wrapper type, whose
    field it reads.  The nil interface, values of other types, nil
    pointers of the other wrapper types and live wrappers never panic. *)
Theorem unwrap_panics_iff_nil_wrapper s h v :
  well_typed h v →
  (Unwrap s h v = Panic ↔ v = IVal (wrapper_type s) 0).
Proof.
  intros Hty. split.
  - intros HU. destruct (wrapper_or_not s v) as [Hn|[p ->]].
    + rewrite Unwrap_other in HU; [done|]. by apply type_assert_None.
    + rewrite Unwrap_wrapper_eq in HU.
      assert (p = 0%nat ∨ is_Some (receiver h (wrapper_type s) p)) as [->|[u Hu]]
        by (by destruct s).
      * done.
      * by rewrite Hu in HU.
  - intros ->. rewrite Unwrap_wrapper_eq. unfold receiver. by destruct s.
Qed.

Lemma unwrap_panics_iff_nil_wrapper_witness :
  UnwrapSymlinkFS [] (IVal PtrSymlinkFileSystem 0) = Panic ∧
  UnwrapSymlinkFS [] (IVal PtrFileSystem 0) ≠ Panic ∧
  UnwrapSymlinkFS [] INil ≠ Panic.
Proof.
  split; [|split].
  - apply (unwrap_panics_iff_nil_wrapper SSymlinkFileSystem []
             (IVal PtrSymlinkFileSystem 0)); [by left | reflexivity].
  - intros H.
    apply (unwrap_panics_iff_nil_wrapper SSymlinkFileSystem []
             (IVal PtrFileSystem 0)) in H; [discriminate | by left].
  - intros H.
    apply (unwrap_panics_iff_nil_wrapper SSymlinkFileSystem [] INil) in H;
      [discriminate | exact I].
Defined.

(** X3.  Unwrapping stays inside the heap and goes back in time: in a
    well-formed heap the value an unwrap function returns is valid, and
    when the argument was a wrapper of the surface the value is older than
    the wrapper (it does not point at or past the wrapper's address). *)
Theorem unwrap_descends s h v u :
  wf_heap h → valid h v →
  Unwrap s h v = Ret u →
  valid h u ∧
  ∀ p, wrapper_addr s v = Some p → (0 < p)%nat ∧ ptr_below (p - 1) u.
Proof.
  intros Hwf Hv HU. destruct (wrapper_or_not s v) as [Hn|[p ->]].
  - rewrite Unwrap_other in HU by (by apply type_assert_None).
    injection HU as <-. split; [done|].
    intros p Hp. unfold wrapper_addr in Hp.
    apply type_assert_Some in Hp as ->. by destruct Hn.
  - rewrite Unwrap_wrapper_eq in HU.
    destruct (receiver h (wrapper_type s) p) as [u'|] eqn:Hr; [|done].
    injection HU as ->. apply receiver_older in Hr as [Hp Hb]; [|done].
    split.
    + unfold valid. eapply ptr_below_mono; [|exact Hb]. lia.
    + intros q Hq. unfold wrapper_addr in Hq.
      apply type_assert_Some in Hq. injection Hq as <-.
      split; [lia | done].
Qed.

Lemma unwrap_descends_witness :
  let h := [OFiler (mkFiler TestFS.mfs); OFiler (mkFiler (IVal PtrFiler 1))] in
  valid h (IVal PtrFiler 1) ∧
  ∀ p, wrapper_addr SFiler (IVal PtrFiler 2) = Some p →
       (0 < p)%nat ∧ ptr_below (p - 1) (IVal PtrFiler 1).
Proof.
  apply (unwrap_descends SFiler _ (IVal PtrFiler 2) (IVal PtrFiler 1)).
  - intros [|[|i]] o Hi; simpl in Hi.
    + by injection Hi as <-.
    + injection Hi as <-. simpl. lia.
    + by rewrite lookup_nil in Hi.
  - simpl. lia.
  - reflexivity.
Defined.

Lemma Unwrap_valid s h v u :
  wf_heap h → valid h v → Unwrap s h v = Ret u → valid h u.
Proof.
  intros Hwf Hv HU. destruct (wrapper_or_not s v) as [Hn|[p ->]].
  - rewrite Unwrap_other in HU by (by apply type_assert_None). congruence.
  - rewrite Unwrap_wrapper_eq in HU.
    destruct (receiver h (wrapper_type s) p) as [u'|] eqn:Hr; [|done].
    injection HU as ->. apply receiver_older in Hr as [Hp Hb]; [|done].
    unfold valid. eapply ptr_below_mono; [|exact Hb]. lia.
Qed.

Lemma unwrap_iter_reaches s h n :
  wf_heap h → (n ≤ length h)%nat →
  ∀ v, ptr_below n v →
    ∃ k, (k ≤ S n)%nat ∧
      (unwrap_iter s k h v = Panic ∨
       ∃ u, unwrap_iter s k h v = Ret u ∧
            concrete_type u ≠ Some (wrapper_type s) ∧ valid h u).
Proof.
  intros Hwf. induction n as [|n IH]; intros Hn v Hv.
  - destruct (wrapper_or_not s v) as [Hnw|[p ->]].
    + exists 0%nat. split; [lia|]. right. exists v. repeat split; [done|].
      eapply ptr_below_mono; [|exact Hv]. lia.
    + apply ptr_below_wrapper in Hv. assert (p = 0%nat) as -> by lia.
      exists 1%nat. split; [lia|]. left. cbn [unwrap_iter].
      rewrite Unwrap_wrapper_eq. unfold receiver. by destruct s.
  - destruct (wrapper_or_not s v) as [Hnw|[p ->]].
    + exists 0%nat. split; [lia|]. right. exists v. repeat split; [done|].
      eapply ptr_below_mono; [|exact Hv]. lia.
    + apply ptr_below_wrapper in Hv.
      destruct (receiver h (wrapper_type s) p) as [u|] eqn:Hr.
      * pose proof Hr as Hr'. apply receiver_older in Hr' as [Hp Hb]; [|done].
        destruct (IH ltac:(lia) u) as (k & Hk & Hres).
        { eapply ptr_below_mono; [|exact Hb]. lia. }
        exists (S k). split; [lia|]. cbn [unwrap_iter].
        rewrite Unwrap_wrapper_eq, Hr. exact Hres.
      * exists 1%nat. split; [lia|]. left. cbn [unwrap_iter].
        by rewrite Unwrap_wrapper_eq, Hr.
Qed.

(** X4.  Repeated unwrapping converges: in a well-formed heap, at most
    [length h + 1] calls of an unwrap function take any valid value to a
    value that is not a wrapper of the surface, or to the panic on a nil
    wrapper pointer, and further calls change nothing. *)
Theorem unwrap_iter_converges s h v :
  wf_heap h → valid h v →
  ∃ k, (k ≤ S (length h))%nat ∧
    (unwrap_iter s k h v = Panic ∨
     ∃ u, unwrap_iter s k h v = Ret u ∧
          concrete_type u ≠ Some (wrapper_type s) ∧ valid h u) ∧
    ∀ j, unwrap_iter s (k + j) h v = unwrap_iter s k h v.
Proof.
  intros Hwf Hv.
  destruct (unwrap_iter_reaches s h (length h) Hwf ltac:(lia) v Hv)
    as (k & Hk & Hres).
  exists k. split; [done|]. split; [done|].
  intros j. rewrite unwrap_iter_add.
  destruct Hres as [->|(u & -> & Hu & _)]; [done|].
  simpl. by apply unwrap_iter_fix.
Qed.

Lemma unwrap_iter_converges_witness :
  let h := [OFiler (mkFiler TestFS.mfs); OFiler (mkFiler (IVal PtrFiler 1))] in
  ∃ k, (k ≤ 3)%nat ∧
    (unwrap_iter SFiler k h (IVal PtrFiler 2) = Panic ∨
     ∃ u, unwrap_iter SFiler k h (IVal PtrFiler 2) = Ret u ∧
          concrete_type u ≠ Some PtrFiler ∧ valid h u) ∧
    ∀ j, unwrap_iter SFiler (k + j) h (IVal PtrFiler 2)
         = unwrap_iter SFiler k h (IVal PtrFiler 2).
Proof.
  intros h. apply (unwrap_iter_converges SFiler h (IVal PtrFiler 2)).
  - intros [|[|i]] o Hi; simpl in Hi.
    + by injection Hi as <-.
    + injection Hi as <-. simpl. lia.
    + by rewrite lookup_nil in Hi.
  - simpl. lia.
Defined.

(** X5.  An unwrap function does not see through a layer of another
    surface: when a wrapper of surface [s] holds a wrapper of another
    surface [s'], any number of calls (at least one) of the unwrap function
    of [s] returns that inner wrapper and goes no further. *)
Theorem unwrap_stops_at_other_surface s s' h p q k :
  s ≠ s' →
  receiver h (wrapper_type s) p = Some (IVal (wrapper_type s') q) →
  (0 < k)%nat →
  unwrap_iter s k h (IVal (wrapper_type s) p) = Ret (IVal (wrapper_type s') q).
Proof.
  intros Hne Hr Hk. destruct k as [|k]; [lia|].
  cbn [unwrap_iter]. rewrite Unwrap_wrapper_eq, Hr. simpl.
  apply unwrap_iter_fix. simpl. intros [= Heq].
  apply Hne. by destruct s, s'.
Qed.

Lemma unwrap_stops_at_other_surface_witness :
  (* NewFS(NewSymlinkFS(mfs)), unwrapped three times with UnwrapFS *)
  unwrap_iter SFileSystem 3
    [OSymlinkFileSystem (mkSymlinkFileSystem TestFS.mfs);
     OFileSystem (mkFileSystem (IVal PtrSymlinkFileSystem 1))]
    (IVal PtrFileSystem 2)
  = Ret (IVal PtrSymlinkFileSystem 1).
Proof.
  apply (unwrap_stops_at_other_surface SFileSystem SSymlinkFileSystem _ 2 1 3);
    [discriminate | reflexivity | lia].
Defined.

(** X6.  The backend's concrete type shows after exactly as many unwraps
    as there are layers: with [n] layers of one surface around a value of
    a foreign type, the assertion to that type fails after fewer than [n]
    unwraps and succeeds, giving the backend's pointer, after [n] or more
    (TestAntiReflection_MultiLayerWrapUnwrap, Example_multiLayerWrap). *)
Theorem backend_type_after_n_unwraps s n h T p h' W k :
  wrap_iter s n h (IVal (Foreign T) p) = Some (h', W) →
  ∃ U, unwrap_iter s k h' W = Ret U ∧
       ((k < n)%nat → type_assert U (Foreign T) = None) ∧
       ((n ≤ k)%nat → type_assert U (Foreign T) = Some p).
Proof.
  intros Hn. destruct (decide (k < n)%nat) as [Hlt|Hge].
  - destruct (unwrap_iter_wrap_iter s n h _ h' W [] k Hn ltac:(lia))
      as (hk & Wk & H1 & H2).
    rewrite app_nil_r in H2. exists Wk. split; [done|]. split; [|lia].
    intros _. apply wrap_iter_shape in H1 as [_ HW]. rewrite HW by lia.
    apply type_assert_None. by destruct s.
  - destruct (unwrap_iter_wrap_iter s n h _ h' W [] n Hn ltac:(lia))
      as (hk & Wk & H1 & H2).
    rewrite app_nil_r in H2. rewrite Nat.sub_diag in H1. simpl in H1.
    injection H1 as <- <-.
    exists (IVal (Foreign T) p). split; [|split; [lia|]].
    + replace k with (n + (k - n))%nat by lia.
      rewrite unwrap_iter_add, H2. simpl.
      apply unwrap_iter_fix. by destruct s.
    + intros _. simpl. by rewrite decide_True.
Qed.

Lemma backend_type_after_n_unwraps_witness :
  let h' := [OSymlinkFileSystem (mkSymlinkFileSystem TestFS.mfs);
             OSymlinkFileSystem (mkSymlinkFileSystem (IVal PtrSymlinkFileSystem 1))] in
  ∃ U, unwrap_iter SSymlinkFileSystem 1 h' (IVal PtrSymlinkFileSystem 2) = Ret U ∧
       ((1 < 2)%nat → type_assert U (Foreign "*testfs.FS") = None) ∧
       ((2 ≤ 1)%nat → type_assert U (Foreign "*testfs.FS") = Some 1%nat).
Proof.
  apply (backend_type_after_n_unwraps SSymlinkFileSystem 2 [] "*testfs.FS" 1).
  reflexivity.
Defined.

Section UnwrapCalls.
Context {World : Type}.
Variable methods : string → addr → op → World → outcome World.

Lemma call_agree a b h v o w :
  call methods a h v o w ≠ None → call methods b h v o w ≠ None →
  call methods a h v o w = call methods b h v o w.
Proof.
  intros Ha Hb. destruct (Nat.le_ge_cases a b).
  - symmetry. by apply call_fuel_le.
  - by apply call_fuel_le.
Qed.

Lemma Unwrap_same_call s h v u o w :
  wf_heap h → valid h v → Unwrap s h v = Ret u → has_op s o = true →
  ∀ n, (length h < n)%nat →
       call methods n h v o w = call methods n h u o w.
Proof.
  intros Hwf Hv HU Ho n Hn. destruct (wrapper_or_not s v) as [Hnw|[p ->]].
  - rewrite Unwrap_other in HU by (by apply type_assert_None). congruence.
  - rewrite Unwrap_wrapper_eq in HU.
    destruct (receiver h (wrapper_type s) p) as [u'|] eqn:Hr; [|done].
    injection HU as ->. destruct n as [|n]; [lia|].
    rewrite (call_forward methods n h s p u o w Ho Hr).
    apply receiver_older in Hr as [Hp Hb]; [|done].
    apply ptr_below_wrapper in Hv.
    apply call_agree; eapply call_total; try done; lia.
Qed.

(** X7.  Unwrapping does not change what a call does: when unwrap calls
    of surface [s] take a valid value [v] to [u], every method of that
    surface called on [v] has the outcome it has on [u] (result, error,
    backend state, or panic).  The methods of the wrappers are the
    forwarding ones of [call]. *)
Theorem unwrap_iter_same_calls s k h v u o w :
  wf_heap h → valid h v →
  unwrap_iter s k h v = Ret u →
  has_op s o = true →
  ∃ x, ∀ n, (length h < n)%nat →
    call methods n h v o w = Some x ∧ call methods n h u o w = Some x.
Proof.
  intros Hwf Hv Hk Ho. revert v Hv Hk.
  induction k as [|k IH]; intros v Hv Hk.
  - simpl in Hk. injection Hk as <-.
    pose proof (call_total methods (S (length h)) h v o w (length h) Hwf Hv
                  ltac:(lia)) as Hsome.
    destruct (call methods (S (length h)) h v o w) as [x|] eqn:Hx; [|done].
    exists x. intros n Hn.
    assert (call methods n h v o w = Some x) as ->; [|done].
    rewrite <- Hx. apply call_fuel_le; [lia|]. by rewrite Hx.
  - cbn [unwrap_iter] in Hk.
    destruct (Unwrap s h v) as [v1|] eqn:HU; [|done]. simpl in Hk.
    destruct (IH v1 (Unwrap_valid _ _ _ _ Hwf Hv HU) Hk) as [x Hx].
    exists x. intros n Hn. destruct (Hx n Hn) as [H1 H2]. split; [|done].
    by rewrite (Unwrap_same_call s h v v1 o w Hwf Hv HU Ho n Hn).
Qed.
End UnwrapCalls.

Lemma unwrap_iter_same_calls_witness :
  let h := [OSymlinkFileSystem (mkSymlinkFileSystem TestFS.mfs);
            OSymlinkFileSystem (mkSymlinkFileSystem (IVal PtrSymlinkFileSystem 1))] in
  ∃ x, ∀ n, (2 < n)%nat →
    call TestFS.methods n h (IVal PtrSymlinkFileSystem 2) (Lstat "/link.txt")
         TestFS.linked = Some x ∧
    call TestFS.methods n h TestFS.mfs (Lstat "/link.txt") TestFS.linked = Some x.
Proof.
  intros h.
  apply (unwrap_iter_same_calls TestFS.methods SSymlinkFileSystem 2 h
           (IVal PtrSymlinkFileSystem 2) TestFS.mfs).
  - intros [|[|i]] o Hi; simpl in Hi.
    + by injection Hi as <-.
    + injection Hi as <-. simpl. lia.
    + by rewrite lookup_nil in Hi.
  - simpl. lia.
  - reflexivity.
  - reflexivity.
Defined.

(** ** Wrappers over a backend that honours the specification *)

Section AnswerFacts.
Context {World : Type}.
Variable methods : string → addr → op → World → outcome World.











End AnswerFacts.

(** [TestFS] honours the three expectations. *)












